(** * The Boost.Python [World] example of meson's framework tests

    Source: [test cases/frameworks/1 boost/python_module.cpp].

    The translation unit declares one struct, [World], holding a single
    [std::string] and three member functions, and registers it with
    [BOOST_PYTHON_MODULE].  This file embeds the struct, its member
    functions and the registration body, together with the small part of
    the C++ standard library ([std::to_string]) and of the host runtime
    (objects with identity, calls by name) that the member functions and
    the registration rely on. *)

From Stdlib Require Import ZArith Ascii String List Lia Bool.
From stdpp Require Import gmap strings.

Local Open Scope string_scope.
Local Open Scope Z_scope.

(** ** [std::string] and [std::to_string]

    A [std::string] is a sequence of bytes; [String.string] is exactly that
    (a list of 8-bit [ascii] values), so multi-byte encoded text is just a
    longer byte sequence. *)

Module Std.

(** ['0' + d] for a decimal digit [d]. *)
Definition digit_char (d : Z) : ascii := ascii_of_nat (Z.to_nat (48 + d)).

(** Decimal digits of [u], most significant first, written in front of
    [acc].  The recursion divides by ten; [fuel] bounds its depth. *)
Fixpoint to_chars (fuel : nat) (u : Z) (acc : string) : string :=
  let acc' := String (digit_char (u mod 10)) acc in
  match fuel with
  | O => acc'
  | S fuel' => if u / 10 =? 0 then acc' else to_chars fuel' (u / 10) acc'
  end.

(** The number of binary digits of [u] is enough fuel for its decimal
    digits. *)
Definition digits_fuel (u : Z) : nat := S (Z.to_nat (Z.log2 u)).

(** [std::to_string(int)]: the text [printf("%d")] would produce. *)
Definition to_string (v : Z) : string :=
  if v <? 0
  then String "-" (to_chars (digits_fuel (- v)) (- v) "")
  else to_chars (digits_fuel v) v "".

(** Reading decimal text back, used to state that [to_string] prints the
    number it was given. *)
Definition is_digit (c : ascii) : bool :=
  let n := Z.of_nat (nat_of_ascii c) in (48 <=? n) && (n <=? 57).

Definition digit_value (c : ascii) : Z := Z.of_nat (nat_of_ascii c) - 48.

Fixpoint parse_digits (s : string) (acc : Z) : option Z :=
  match s with
  | EmptyString => Some acc
  | String c s' =>
      if is_digit c then parse_digits s' (acc * 10 + digit_value c) else None
  end.

Fixpoint all_digits (s : string) : bool :=
  match s with
  | EmptyString => true
  | String c s' => is_digit c && all_digits s'
  end.

End Std.

(** ** Regular expressions

    The version text is specified by the pattern [^\d+\.\d+$].  Patterns
    are matched against the whole text (both anchors are present), with
    Brzozowski derivatives as the executable matcher and the usual
    inductive semantics as its specification. *)

Module Regex.

Inductive regex : Type :=
| Void
| Eps
| Class (p : ascii -> bool)
| Cat (r1 r2 : regex)
| Alt (r1 r2 : regex)
| Star (r : regex).

Definition Chr (c : ascii) : regex := Class (Ascii.eqb c).
Definition Digit : regex := Class Std.is_digit.
Definition Plus (r : regex) : regex := Cat r (Star r).

Inductive Matches : regex -> string -> Prop :=
| MEps : Matches Eps ""
| MClass p c : p c = true -> Matches (Class p) (String c "")
| MCat r1 r2 s1 s2 :
    Matches r1 s1 -> Matches r2 s2 -> Matches (Cat r1 r2) (s1 ++ s2)
| MAltL r1 r2 s : Matches r1 s -> Matches (Alt r1 r2) s
| MAltR r1 r2 s : Matches r2 s -> Matches (Alt r1 r2) s
| MStarNil r : Matches (Star r) ""
| MStarApp r s1 s2 :
    Matches r s1 -> Matches (Star r) s2 -> Matches (Star r) (s1 ++ s2).

Fixpoint nullable (r : regex) : bool :=
  match r with
  | Void => false
  | Eps => true
  | Class _ => false
  | Cat r1 r2 => nullable r1 && nullable r2
  | Alt r1 r2 => nullable r1 || nullable r2
  | Star _ => true
  end.

Fixpoint deriv (c : ascii) (r : regex) : regex :=
  match r with
  | Void => Void
  | Eps => Void
  | Class p => if p c then Eps else Void
  | Cat r1 r2 =>
      if nullable r1
      then Alt (Cat (deriv c r1) r2) (deriv c r2)
      else Cat (deriv c r1) r2
  | Alt r1 r2 => Alt (deriv c r1) (deriv c r2)
  | Star r1 => Cat (deriv c r1) (Star r1)
  end.

Fixpoint re_match (r : regex) (s : string) : bool :=
  match s with
  | EmptyString => nullable r
  | String c s' => re_match (deriv c r) s'
  end.

(** [^\d+\.\d+$] *)
Definition version_pattern : regex :=
  Cat (Plus Digit) (Cat (Chr ".") (Plus Digit)).

End Regex.

(** ** The holder: [struct World] *)

(** [struct World { ...; std::string msg; };] *)
Record World : Type := { msg : string }.

(** A member function runs on the object it is called on ([this]) and
    yields its result together with the object as the call leaves it. *)
Definition method (A : Type) : Type := World -> A * World.

(** The implicit default constructor: [msg] is default-initialised, which
    for [std::string] is the empty string. *)
Definition World_ctor : World := {| msg := "" |}.

(** [void set(std::string msg) { this->msg = msg; }]; [msg] is the only
    member, so the assignment determines the whole object. *)
Definition set (msg_ : string) : method unit :=
  fun this => (tt, {| msg := msg_ |}).

(** [std::string greet() { return msg; }] *)
Definition greet : method string :=
  fun this => (msg this, this).

(** The two version macros come from the host runtime's headers and the
    module name from the compiler command line; none of them is defined in
    the translation unit, so they are parameters here. *)
Section BuildConfiguration.

Variables PY_MAJOR_VERSION PY_MINOR_VERSION : Z.
Variable MOD_NAME : string.

(** [std::string version() {
       return std::to_string(PY_MAJOR_VERSION) + "."
            + std::to_string(PY_MINOR_VERSION); }] *)
Definition version : method string :=
  fun this =>
    ((Std.to_string PY_MAJOR_VERSION ++ ".") ++ Std.to_string PY_MINOR_VERSION,
     this).

(** *** Operations on a holder, as a caller issues them *)

Inductive op : Type :=
| OpSet (t : string)
| OpGreet
| OpVersion.

Definition is_set (o : op) : bool :=
  match o with OpSet _ => true | _ => false end.

(** What a call hands back: [set] returns nothing, the other two text. *)
Definition exec_op (o : op) (this : World) : option string * World :=
  match o with
  | OpSet t => let '(_, this') := set t this in (None, this')
  | OpGreet => let '(r, this') := greet this in (Some r, this')
  | OpVersion => let '(r, this') := version this in (Some r, this')
  end.

(** Running a sequence of calls, first to last, on one holder. *)
Fixpoint run (ops : list op) (this : World) : World :=
  match ops with
  | [] => this
  | o :: ops' => run ops' (snd (exec_op o this))
  end.

(** The argument of the most recent [set] in a sequence of calls, if the
    sequence has one; this follows the wording of the invariant, not the
    code. *)
Fixpoint last_set (ops : list op) : option string :=
  match ops with
  | [] => None
  | o :: ops' =>
      match last_set ops' with
      | Some t => Some t
      | None => match o with OpSet t => Some t | _ => None end
      end
  end.

(** ** The registration surface: [BOOST_PYTHON_MODULE(MOD_NAME)] *)

(** Values crossing the binding layer. *)
Inductive object : Type :=
| PyNone
| PyStr (s : string)
| PyInt (z : Z).

(** Pointers to member functions: [&World::greet], [&World::set],
    [&World::version]. *)
Inductive member_fn : Type :=
| World_greet
| World_set
| World_version.

Inductive error : Type :=
| AttributeError     (* no operation of that name *)
| ArgumentError      (* arguments do not fit the C++ signature *)
| ReferenceError.    (* no such instance *)

Definition result (A : Type) : Type := error + A.

(** Calling through a member-function pointer with converted arguments.
    The binding library's caller is not part of the translation unit; it
    is represented only as far as the signatures of the three member
    functions determine it: a call whose arguments fit reaches the member
    function.  Any other call is marked refused; which conversions the
    library accepts besides, and what it raises, is not modelled. *)
Definition invoke (f : member_fn) (args : list object) (this : World)
  : result (object * World) :=
  match f, args with
  | World_greet, [] =>
      let '(r, this') := greet this in inr (PyStr r, this')
  | World_set, [PyStr s] =>
      let '(_, this') := set s this in inr (PyNone, this')
  | World_version, [] =>
      let '(r, this') := version this in inr (PyStr r, this')
  | _, _ => inl ArgumentError
  end.

(** An exposed type: its external name, how instances are constructed,
    and the operations bound by [def], most recent first. *)
Record py_class : Type := {
  class_name : string;
  class_init : World;
  class_defs : list (string * member_fn)
}.

(** [class_<World>("World")]: a class with the default constructor and no
    operation bound yet. *)
Definition class_ (name : string) : py_class :=
  {| class_name := name; class_init := World_ctor; class_defs := [] |}.

(** [c.def(name, f)] *)
Definition def (name : string) (f : member_fn) (c : py_class) : py_class :=
  {| class_name := class_name c;
     class_init := class_init c;
     class_defs := (name, f) :: class_defs c |}.

Fixpoint lookup_def (name : string) (defs : list (string * member_fn))
  : option member_fn :=
  match defs with
  | [] => None
  | (n, f) :: defs' =>
      if String.eqb n name then Some f else lookup_def name defs'
  end.

Record py_module : Type := {
  module_name : string;
  module_classes : list py_class
}.

(** The class expression of the module body:
    [class_<World>("World").def("greet", &World::greet)
        .def("set", &World::set).def("version", &World::version)] *)
Definition World_class : py_class :=
  def "version" World_version
    (def "set" World_set
       (def "greet" World_greet
          (class_ "World"))).

(** [BOOST_PYTHON_MODULE(MOD_NAME) { ... }] *)
Definition init_module : py_module :=
  {| module_name := MOD_NAME; module_classes := [World_class] |}.

(** ** Instances in the host runtime

    The runtime keeps the instances it constructed in a store, each under
    its own identity; a call names the instance it is made on.  Only the
    names bound by [def] are looked up here: the names every instance
    answers on its own (its constructor, inherited attributes) are not in
    that table and not modelled. *)

Definition construct (c : py_class) (σ : gmap positive World)
  : positive * gmap positive World :=
  let l := fresh (dom σ) in (l, <[l := class_init c]> σ).

Definition call_method (c : py_class) (l : positive) (name : string)
    (args : list object) (σ : gmap positive World)
  : result (object * gmap positive World) :=
  match σ !! l with
  | None => inl ReferenceError
  | Some this =>
      match lookup_def name (class_defs c) with
      | None => inl AttributeError
      | Some f =>
          match invoke f args this with
          | inl e => inl e
          | inr (r, this') => inr (r, <[l := this']> σ)
          end
      end
  end.

End BuildConfiguration.

(** ** The member functions over memory

    Compiled, a member function receives [this], a pointer, and runs over
    the memory that holds every live [World], not over its own object
    alone: nothing in its type keeps it from reaching another object.
    Which objects a call reads and writes is therefore a property of the
    function body.  Memory maps the address of each live object to its
    value; [msg] is a non-static member, so every object carries its own,
    and a [std::string] owns its bytes, so assigning one copies them. *)

Module Memory.

(** [p->msg] read; there is no value when [p] points to no live object. *)
Definition load_msg (p : positive) (m : gmap positive World)
  : option string :=
  match m !! p with
  | Some w => Some (msg w)
  | None => None
  end.

(** [p->msg = v]: the member [msg] of the object at [p] is overwritten
    and no other byte of memory is. *)
Definition store_msg (p : positive) (v : string) (m : gmap positive World)
  : option (gmap positive World) :=
  match m !! p with
  | Some _ => Some (<[p := {| msg := v |}]> m)
  | None => None
  end.

(** A new [World] object: storage that no live object occupies,
    initialised by the default constructor. *)
Definition new_World (m : gmap positive World)
  : positive * gmap positive World :=
  let p := fresh (dom m) in (p, <[p := World_ctor]> m).

(** [void set(std::string msg) { this->msg = msg; }] *)
Definition set (this : positive) (msg_ : string) (m : gmap positive World)
  : option (unit * gmap positive World) :=
  match store_msg this msg_ m with
  | Some m' => Some (tt, m')
  | None => None
  end.

(** [std::string greet() { return msg; }], where [msg] is [this->msg]. *)
Definition greet (this : positive) (m : gmap positive World)
  : option (string * gmap positive World) :=
  match load_msg this m with
  | Some r => Some (r, m)
  | None => None
  end.

End Memory.

(** ** Text around the separator of the version

    [version] joins two numbers with ["."]; a text without that byte
    cannot reach across the separator. *)
Fixpoint no_dot (s : string) : bool :=
  match s with
  | EmptyString => true
  | String c s' => negb (Ascii.eqb c ".") && no_dot s'
  end.

(** * Properties *)

(** ** [std::to_string] prints decimal digits *)

Module StdFacts.
Import Std.

Lemma digit_cases (d : Z) :
  0 <= d < 10 ->
  d = 0 \/ d = 1 \/ d = 2 \/ d = 3 \/ d = 4 \/
  d = 5 \/ d = 6 \/ d = 7 \/ d = 8 \/ d = 9.
Proof. lia. Qed.

Lemma is_digit_digit_char (d : Z) :
  0 <= d < 10 -> is_digit (digit_char d) = true.
Proof.
  intros Hd. destruct (digit_cases d Hd) as [-> | H]; [reflexivity |].
  repeat (destruct H as [-> | H]; [reflexivity |]). subst d. reflexivity.
Qed.

Lemma digit_value_digit_char (d : Z) :
  0 <= d < 10 -> digit_value (digit_char d) = d.
Proof.
  intros Hd. destruct (digit_cases d Hd) as [-> | H]; [reflexivity |].
  repeat (destruct H as [-> | H]; [reflexivity |]). subst d. reflexivity.
Qed.

Lemma mod10_digit (u : Z) : 0 <= u mod 10 < 10.
Proof. apply Z.mod_pos_bound. lia. Qed.

Lemma all_digits_to_chars (fuel : nat) :
  forall u acc, all_digits (to_chars fuel u acc) = all_digits acc.
Proof.
  induction fuel as [| fuel IH]; intros u acc; simpl.
  - rewrite is_digit_digit_char by apply mod10_digit. reflexivity.
  - destruct (u / 10 =? 0).
    + simpl. rewrite is_digit_digit_char by apply mod10_digit. reflexivity.
    + rewrite IH. simpl.
      rewrite is_digit_digit_char by apply mod10_digit. reflexivity.
Qed.

Lemma to_chars_nonempty (fuel : nat) :
  forall u acc, to_chars fuel u acc <> "".
Proof.
  induction fuel as [| fuel IH]; intros u acc; simpl.
  - discriminate.
  - destruct (u / 10 =? 0); [discriminate | apply IH].
Qed.

(** Reading the printed digits of [u] leaves the reader with [u]. *)
Lemma parse_to_chars (fuel : nat) :
  forall u acc,
    0 <= u < 2 ^ Z.of_nat fuel ->
    parse_digits (to_chars fuel u acc) 0 = parse_digits acc u.
Proof.
  induction fuel as [| fuel IH]; intros u acc Hu.
  - assert (u = 0) by (simpl in Hu; lia). subst u. reflexivity.
  - cbn [to_chars]. destruct (Z.eqb_spec (u / 10) 0) as [Hq | Hq].
    + cbn [parse_digits].
      rewrite is_digit_digit_char, digit_value_digit_char by apply mod10_digit.
      f_equal. pose proof (Z.div_mod u 10). lia.
    + rewrite IH.
      * cbn [parse_digits].
        rewrite is_digit_digit_char, digit_value_digit_char
          by apply mod10_digit.
        f_equal. pose proof (Z.div_mod u 10). lia.
      * rewrite Nat2Z.inj_succ, Z.pow_succ_r in Hu by lia.
        split; [apply Z.div_pos; lia |].
        apply Z.div_lt_upper_bound; lia.
Qed.

Lemma digits_fuel_enough (v : Z) :
  0 <= v -> 0 <= v < 2 ^ Z.of_nat (digits_fuel v).
Proof.
  intros Hv. split; [assumption |]. unfold digits_fuel.
  rewrite Nat2Z.inj_succ, Z2Nat.id by apply Z.log2_nonneg.
  destruct (Z.eq_dec v 0) as [-> | Hnz]; [reflexivity |].
  apply Z.log2_spec. lia.
Qed.

Lemma to_string_nonneg (v : Z) :
  0 <= v -> to_string v = to_chars (digits_fuel v) v "".
Proof.
  intros Hv. unfold to_string.
  destruct (Z.ltb_spec v 0); [lia | reflexivity].
Qed.

Lemma to_string_neg (v : Z) :
  v < 0 -> to_string v = String "-" (to_string (- v)).
Proof.
  intros Hv. unfold to_string.
  destruct (Z.ltb_spec v 0); [| lia].
  destruct (Z.ltb_spec (- v) 0); [lia | reflexivity].
Qed.

Lemma to_string_all_digits (v : Z) :
  0 <= v -> all_digits (to_string v) = true.
Proof.
  intros Hv. rewrite to_string_nonneg by assumption.
  apply all_digits_to_chars.
Qed.

Lemma to_string_nonempty (v : Z) : to_string v <> "".
Proof.
  unfold to_string. destruct (v <? 0); [discriminate |].
  apply to_chars_nonempty.
Qed.

Lemma parse_to_string (v : Z) :
  0 <= v -> parse_digits (to_string v) 0 = Some v.
Proof.
  intros Hv. rewrite to_string_nonneg by assumption.
  rewrite parse_to_chars by (apply digits_fuel_enough; assumption).
  reflexivity.
Qed.

End StdFacts.

(** ** The derivative matcher decides the pattern semantics *)

Module RegexFacts.
Import Regex.

Lemma append_empty (s1 s2 : string) : s1 ++ s2 = "" -> s1 = "" /\ s2 = "".
Proof. destruct s1; simpl; [auto | discriminate]. Qed.

Lemma append_assoc (s1 s2 s3 : string) :
  (s1 ++ s2) ++ s3 = s1 ++ (s2 ++ s3).
Proof.
  induction s1 as [| c s1 IH]; [reflexivity |].
  exact (f_equal (String c) IH).
Qed.

Lemma nullable_sound (r : regex) : nullable r = true -> Matches r "".
Proof.
  induction r; simpl; intros H; try discriminate.
  - constructor.
  - apply andb_true_iff in H as [H1 H2].
    apply (MCat r1 r2 "" ""); auto.
  - apply orb_true_iff in H as [H | H]; [apply MAltL | apply MAltR]; auto.
  - constructor.
Qed.

Lemma nullable_complete (r : regex) (s : string) :
  Matches r s -> s = "" -> nullable r = true.
Proof.
  induction 1; intros Hs; simpl; try reflexivity; try discriminate.
  - apply append_empty in Hs as [-> ->]. rewrite IHMatches1, IHMatches2; auto.
  - rewrite IHMatches; auto.
  - rewrite IHMatches; auto using orb_true_r.
Qed.

Lemma deriv_sound (c : ascii) (r : regex) :
  forall s, Matches (deriv c r) s -> Matches r (String c s).
Proof.
  induction r; simpl; intros s H.
  - inversion H.
  - inversion H.
  - destruct (p c) eqn:Hp; inversion H; subst. constructor; assumption.
  - assert (Hcat : forall s, Matches (Cat (deriv c r1) r2) s ->
                             Matches (Cat r1 r2) (String c s)).
    { intros s' H'. inversion H'; subst.
      apply (MCat r1 r2 (String c s1) s2); auto. }
    destruct (nullable r1) eqn:Hn; [| auto].
    inversion H; subst; [auto |].
    apply (MCat r1 r2 "" (String c s)); auto using nullable_sound.
  - inversion H; subst; [apply MAltL | apply MAltR]; auto.
  - inversion H; subst.
    apply (MStarApp r (String c s1) s2); auto.
Qed.

Lemma deriv_complete (r : regex) (cs : string) :
  Matches r cs -> forall c s, cs = String c s -> Matches (deriv c r) s.
Proof.
  induction 1; intros c0 s0 Heq; simpl; try discriminate.
  - injection Heq as -> <-. rewrite H. constructor.
  - destruct s1 as [| a s1']; simpl in Heq.
    + rewrite (nullable_complete r1 "" H eq_refl).
      apply MAltR. auto.
    + injection Heq as -> <-.
      assert (Matches (Cat (deriv c0 r1) r2) (s1' ++ s2))
        by (constructor; auto).
      destruct (nullable r1); [apply MAltL |]; assumption.
  - apply MAltL; auto.
  - apply MAltR; auto.
  - destruct s1 as [| a s1']; simpl in Heq.
    + apply (IHMatches2 c0 s0 Heq).
    + injection Heq as -> <-. constructor; auto.
Qed.

Theorem re_match_spec (s : string) :
  forall r, re_match r s = true <-> Matches r s.
Proof.
  induction s as [| c s IH]; intros r; simpl.
  - split; [apply nullable_sound | intros H; eapply nullable_complete; eauto].
  - rewrite IH. split; [apply deriv_sound |].
    intros H. eapply deriv_complete; eauto.
Qed.

Lemma star_digits (s : string) :
  Std.all_digits s = true -> Matches (Star Digit) s.
Proof.
  induction s as [| c s IH]; simpl; intros H.
  - constructor.
  - apply andb_true_iff in H as [Hc Hs].
    apply (MStarApp Digit (String c "") s); [constructor |]; auto.
Qed.

Lemma plus_digits (s : string) :
  s <> "" -> Std.all_digits s = true -> Matches (Plus Digit) s.
Proof.
  destruct s as [| c s]; [congruence |]. simpl. intros _ H.
  apply andb_true_iff in H as [Hc Hs].
  apply (MCat Digit (Star Digit) (String c "") s);
    [constructor | apply star_digits]; auto.
Qed.

(** Two non-empty runs of digits around a dot match [^\d+\.\d+$]. *)
Lemma dotted_digits_match (a b : string) :
  a <> "" -> b <> "" ->
  Std.all_digits a = true -> Std.all_digits b = true ->
  re_match version_pattern ((a ++ ".") ++ b) = true.
Proof.
  intros Ha Hb Da Db. apply re_match_spec.
  rewrite append_assoc. unfold version_pattern.
  apply MCat; [apply plus_digits; assumption |].
  apply (MCat (Chr ".") (Plus Digit) "." b).
  - constructor. reflexivity.
  - apply plus_digits; assumption.
Qed.

End RegexFacts.

(** ** The holder and its registration *)

(** *** Calls that reach a live holder through the registered class *)

Section HostCalls.

Variables PY_MAJOR_VERSION PY_MINOR_VERSION : Z.

Local Abbreviation version := (version PY_MAJOR_VERSION PY_MINOR_VERSION).
Local Abbreviation call_method :=
  (call_method PY_MAJOR_VERSION PY_MINOR_VERSION).

Lemma call_set (σ : gmap positive World) (l : positive) (w : World)
    (t : string) :
  σ !! l = Some w ->
  call_method World_class l "set" [PyStr t] σ
  = inr (PyNone, <[l := {| msg := t |}]> σ).
Proof. intros Hl. unfold call_method. rewrite Hl. reflexivity. Qed.

Lemma call_greet (σ : gmap positive World) (l : positive) (w : World) :
  σ !! l = Some w ->
  call_method World_class l "greet" [] σ = inr (PyStr (msg w), σ).
Proof.
  intros Hl. unfold call_method. rewrite Hl. simpl.
  rewrite insert_id by assumption. reflexivity.
Qed.

Lemma call_version (σ : gmap positive World) (l : positive) (w : World) :
  σ !! l = Some w ->
  call_method World_class l "version" [] σ = inr (PyStr (fst (version w)), σ).
Proof.
  intros Hl. unfold call_method. rewrite Hl. simpl.
  rewrite insert_id by assumption. reflexivity.
Qed.

Lemma construct_fresh (c : py_class) (σ : gmap positive World) :
  σ !! fst (construct c σ) = None.
Proof. simpl. apply not_elem_of_dom, is_fresh. Qed.

Lemma construct_lookup (c : py_class) (σ : gmap positive World) :
  snd (construct c σ) !! fst (construct c σ) = Some (class_init c).
Proof. simpl. apply lookup_insert_eq. Qed.

End HostCalls.

(** *** Sequences of calls and the most recent [set] *)

Section Sequences.

Variables PY_MAJOR_VERSION PY_MINOR_VERSION : Z.

Local Abbreviation run := (run PY_MAJOR_VERSION PY_MINOR_VERSION).
Local Abbreviation exec_op := (exec_op PY_MAJOR_VERSION PY_MINOR_VERSION).

(** [last_set] is what its name says: it finds [t] exactly when the
    sequence splits around a [set(t)] that no later [set] follows. *)
Lemma last_set_none (ops : list op) :
  last_set ops = None <-> forallb (fun o => negb (is_set o)) ops = true.
Proof.
  induction ops as [| o ops IH]; simpl; [tauto |].
  destruct (last_set ops) as [t |].
  - split; [discriminate |]. intros H.
    apply andb_true_iff in H as [_ H]. apply IH in H. discriminate.
  - destruct IH as [IH _]. rewrite (IH eq_refl), andb_true_r.
    destruct o; simpl; split; congruence.
Qed.

Lemma last_set_app (pre post : list op) (t : string) :
  last_set post = None -> last_set (pre ++ OpSet t :: post)%list = Some t.
Proof.
  intros Hpost. induction pre as [| o pre IH]; simpl.
  - rewrite Hpost. reflexivity.
  - simpl in IH. rewrite IH. reflexivity.
Qed.

Lemma last_set_some (ops : list op) (t : string) :
  last_set ops = Some t ->
  exists pre post, ops = (pre ++ OpSet t :: post)%list /\ last_set post = None.
Proof.
  induction ops as [| o ops IH]; simpl; [discriminate |].
  destruct (last_set ops) as [t' |] eqn:Hl.
  - intros [= ->]. destruct (IH eq_refl) as (pre & post & -> & Hp).
    exists (o :: pre), post. auto.
  - destruct o; try discriminate. intros [= ->].
    exists [], ops. auto.
Qed.

Lemma exec_op_msg (o : op) (w : World) :
  msg (snd (exec_op o w)) = match o with OpSet t => t | _ => msg w end.
Proof. destruct o; reflexivity. Qed.

Lemma run_last_set (ops : list op) :
  forall w, msg (run ops w) = default (msg w) (last_set ops).
Proof.
  induction ops as [| o ops IH]; intros w; simpl; [reflexivity |].
  rewrite IH, exec_op_msg.
  destruct (last_set ops); [reflexivity |]. destruct o; reflexivity.
Qed.

End Sequences.

(** *** The member functions seen from memory *)

Lemma new_World_fresh (m : gmap positive World) :
  m !! fst (Memory.new_World m) = None.
Proof. simpl. apply not_elem_of_dom, is_fresh. Qed.

Lemma new_World_lookup (m : gmap positive World) :
  snd (Memory.new_World m) !! fst (Memory.new_World m) = Some World_ctor.
Proof. simpl. apply lookup_insert_eq. Qed.

(** [set] returns on every live object, and what it writes is the text of
    the object it was called on. *)
Lemma set_writes_this (m : gmap positive World) (this : positive)
    (t : string) :
  is_Some (m !! this) ->
  exists m' : gmap positive World,
    Memory.set this t m = Some (tt, m') /\
    m' = <[this := {| msg := t |}]> m.
Proof.
  intros [w Hw]. eexists. split; [| reflexivity].
  unfold Memory.set, Memory.store_msg. rewrite Hw. reflexivity.
Qed.

(** On a live object the functions over memory do what the functions over
    a single object do to that object. *)
Lemma memory_set_agrees (m : gmap positive World) (this : positive)
    (w : World) (t : string) :
  m !! this = Some w ->
  Memory.set this t m = Some (fst (set t w), <[this := snd (set t w)]> m).
Proof.
  intros Hw. unfold Memory.set, Memory.store_msg. rewrite Hw. reflexivity.
Qed.

Lemma memory_greet_agrees (m : gmap positive World) (this : positive)
    (w : World) :
  m !! this = Some w ->
  Memory.greet this m = Some (fst (greet w), m) /\ snd (greet w) = w.
Proof.
  intros Hw. unfold Memory.greet, Memory.load_msg. rewrite Hw. auto.
Qed.

(** *** The claims about the holder and the registration *)

Section Claims.

Variables PY_MAJOR_VERSION PY_MINOR_VERSION : Z.
Variable MOD_NAME : string.

Local Abbreviation version := (version PY_MAJOR_VERSION PY_MINOR_VERSION).
Local Abbreviation exec_op := (exec_op PY_MAJOR_VERSION PY_MINOR_VERSION).
Local Abbreviation run := (run PY_MAJOR_VERSION PY_MINOR_VERSION).
Local Abbreviation invoke := (invoke PY_MAJOR_VERSION PY_MINOR_VERSION).
Local Abbreviation call_method :=
  (call_method PY_MAJOR_VERSION PY_MINOR_VERSION).

(** C1: whatever the holder held before, [set(t)] followed by [greet()]
    on the same holder returns exactly [t], for every byte sequence [t]
    (the empty one included); after [set("a")] then [set("b")], [greet()]
    returns ["b"]. *)
Theorem set_then_greet :
  (forall (t : string) (w : World), fst (greet (snd (set t w))) = t) /\
  (forall w : World,
      fst (greet (snd (set "b" (snd (set "a" w))))) = "b").
Proof. split; intros; reflexivity. Qed.

(** C2: [greet()] on a freshly constructed holder returns the empty
    text, both called directly on the default-constructed struct and
    called by name on an instance the runtime has just constructed. *)
Theorem greet_fresh_empty :
  fst (greet World_ctor) = "" /\
  (forall σ : gmap positive World,
      call_method World_class (fst (construct World_class σ)) "greet" []
        (snd (construct World_class σ))
      = inr (PyStr "", snd (construct World_class σ))).
Proof.
  split; [reflexivity |]. intros σ.
  exact (call_greet _ _ _ _ _ (construct_lookup World_class σ)).
Qed.

(** C3: with non-negative version constants, [version()] returns the
    decimal text of the major constant, a dot, and the decimal text of
    the minor constant; the result does not depend on the holder it is
    called on nor on earlier calls, and it matches [^\d+\.\d+$]. *)
Theorem version_constant :
  0 <= PY_MAJOR_VERSION -> 0 <= PY_MINOR_VERSION ->
  (forall w : World,
      fst (version w)
      = Std.to_string PY_MAJOR_VERSION ++ "."
          ++ Std.to_string PY_MINOR_VERSION) /\
  Std.parse_digits (Std.to_string PY_MAJOR_VERSION) 0
  = Some PY_MAJOR_VERSION /\
  Std.parse_digits (Std.to_string PY_MINOR_VERSION) 0
  = Some PY_MINOR_VERSION /\
  (forall w1 w2 : World, fst (version w1) = fst (version w2)) /\
  (forall w : World, fst (version (snd (version w))) = fst (version w)) /\
  (forall w : World,
      Regex.re_match Regex.version_pattern (fst (version w)) = true).
Proof.
  intros Hmaj Hmin. repeat split.
  - intros w. apply RegexFacts.append_assoc.
  - apply StdFacts.parse_to_string, Hmaj.
  - apply StdFacts.parse_to_string, Hmin.
  - intros w. simpl.
    apply RegexFacts.dotted_digits_match;
      auto using StdFacts.to_string_nonempty, StdFacts.to_string_all_digits.
Qed.

(** C4: [greet()] returns the holder's current text and leaves the
    holder as it was; called by name on a live instance it leaves the
    whole store as it was. *)
Theorem greet_read_only (σ : gmap positive World) (l : positive)
    (w : World) :
  σ !! l = Some w ->
  greet w = (msg w, w) /\
  call_method World_class l "greet" [] σ = inr (PyStr (msg w), σ).
Proof. intros Hl. split; [reflexivity | apply (call_greet _ _ _ _ _ Hl)]. Qed.

(** C5: [set(t)] returns for every text [t], the empty one included, and
    leaves the holder with [t] as its text; called by name on a live
    instance with a text argument it never takes an error branch and
    changes the store at that instance only. *)
Theorem set_total (σ : gmap positive World) (l : positive) (w : World)
    (t : string) :
  σ !! l = Some w ->
  set t w = (tt, {| msg := t |}) /\
  set "" w = (tt, {| msg := "" |}) /\
  call_method World_class l "set" [PyStr t] σ
  = inr (PyNone, <[l := {| msg := t |}]> σ).
Proof.
  intros Hl. repeat split. apply (call_set _ _ _ _ _ _ Hl).
Qed.

(** C6: holders are isolated.  For any two distinct holders [h1] and
    [h2] in memory, [h1.set(t)] returns, leaves the object of [h2] as it
    was, and [h2.greet()] returns afterwards what it returned before; two
    holders constructed one after the other are distinct, and after
    [h1.set("x")] the call [h2.greet()] returns the empty text. *)
Theorem holders_isolated :
  (forall (m : gmap positive World) (h1 h2 : positive) (t : string),
      h1 <> h2 -> is_Some (m !! h1) ->
      exists m' : gmap positive World,
        Memory.set h1 t m = Some (tt, m') /\
        m' !! h2 = m !! h2 /\
        fst <$> Memory.greet h2 m' = fst <$> Memory.greet h2 m) /\
  (forall m : gmap positive World,
      let h1 := fst (Memory.new_World m) in
      let m1 := snd (Memory.new_World m) in
      let h2 := fst (Memory.new_World m1) in
      let m2 := snd (Memory.new_World m1) in
      h1 <> h2 /\
      exists m3 : gmap positive World,
        Memory.set h1 "x" m2 = Some (tt, m3) /\
        Memory.greet h2 m3 = Some ("", m3)).
Proof.
  split.
  - intros m h1 h2 t Hne Hl.
    destruct (set_writes_this m h1 t Hl) as (m' & Hset & Hm').
    exists m'. split; [exact Hset |].
    assert (Hh2 : m' !! h2 = m !! h2)
      by (rewrite Hm'; apply lookup_insert_ne, Hne).
    split; [exact Hh2 |].
    unfold Memory.greet, Memory.load_msg. rewrite Hh2.
    destruct (m !! h2); reflexivity.
  - intros m h1 m1 h2 m2.
    assert (Hne : h1 <> h2).
    { intros Heq. pose proof (new_World_fresh m1) as Hf.
      fold h2 in Hf. rewrite <- Heq in Hf.
      pose proof (new_World_lookup m) as Hl. fold h1 m1 in Hl.
      congruence. }
    split; [exact Hne |].
    assert (H1 : is_Some (m2 !! h1)).
    { exists World_ctor. subst m2 h2. simpl.
      rewrite lookup_insert_ne by (intros Heq; apply Hne; symmetry; exact Heq).
      apply (new_World_lookup m). }
    destruct (set_writes_this m2 h1 "x" H1) as (m3 & Hset & Hm3).
    exists m3. split; [exact Hset |].
    unfold Memory.greet, Memory.load_msg.
    rewrite Hm3, lookup_insert_ne by exact Hne.
    pose proof (new_World_lookup m1) as Hl. fold h2 m2 in Hl.
    rewrite Hl. reflexivity.
Qed.

(** C7: after any finite sequence of [set], [greet] and [version] calls
    on a freshly constructed holder, its text is the argument of the most
    recent [set] of the sequence, or empty when the sequence has none. *)
Theorem text_is_last_set (ops : list op) :
  msg (run ops World_ctor) = default "" (last_set ops).
Proof. apply run_last_set. Qed.

(** C8: the module body declares, under the module name given at build
    time, one class named ["World"] whose operation table binds
    ["greet"], ["set"] and ["version"] to [World::greet], [World::set]
    and [World::version], and no other name. *)
Theorem registration_surface :
  module_name (init_module MOD_NAME) = MOD_NAME /\
  module_classes (init_module MOD_NAME) = [World_class] /\
  class_name World_class = "World" /\
  class_defs World_class
  = [("version", World_version); ("set", World_set);
     ("greet", World_greet)] /\
  (forall name : string,
      lookup_def name (class_defs World_class)
      = if String.eqb name "greet" then Some World_greet
        else if String.eqb name "set" then Some World_set
        else if String.eqb name "version" then Some World_version
        else None) /\
  (forall w : World,
      invoke World_greet [] w = inr (PyStr (fst (greet w)), snd (greet w))) /\
  (forall (s : string) (w : World),
      invoke World_set [PyStr s] w = inr (PyNone, snd (set s w))) /\
  (forall w : World,
      invoke World_version [] w
      = inr (PyStr (fst (version w)), snd (version w))).
Proof.
  repeat split. intros name.
  unfold World_class, def, class_. cbn [class_defs lookup_def].
  rewrite !(String.eqb_sym _ name).
  destruct (String.eqb_spec name "greet") as [-> | _]; [reflexivity |].
  destruct (String.eqb_spec name "set") as [-> | _]; [reflexivity |].
  destruct (String.eqb name "version"); reflexivity.
Qed.

(** C9: setting the text to what [greet()] currently returns leaves the
    holder as it was. *)
Theorem set_greet_id (w : World) :
  snd (set (fst (greet w)) (snd (greet w))) = w.
Proof. destruct w as [m]. reflexivity. Qed.

(** C10: [version()] leaves the holder, and so its text, as it was, and
    returns the same text whatever the holder holds. *)
Theorem version_frame :
  (forall w : World, snd (version w) = w) /\
  (forall w : World, msg (snd (exec_op OpVersion w)) = msg w) /\
  (forall w1 w2 : World, fst (version w1) = fst (version w2)).
Proof. repeat split. Qed.

End Claims.

(** ** The claims at concrete inputs *)

(** Scenario 2 of the specification, and text with a two-byte character
    (the UTF-8 encoding of U+00E9) and with the empty string. *)
Example scenario_hello :
  fst (greet (snd (set "hello" World_ctor))) = "hello".
Proof. reflexivity. Qed.

Example set_greet_two_bytes :
  let t := String (ascii_of_nat 195) (String (ascii_of_nat 169) "") in
  fst (greet (snd (set t World_ctor))) = t.
Proof. reflexivity. Qed.

Example set_greet_empty :
  fst (greet (snd (set "" {| msg := "before" |}))) = "".
Proof. reflexivity. Qed.

Example version_3_12 : fst (version 3 12 World_ctor) = "3.12".
Proof. reflexivity. Qed.

Example pattern_rejects :
  Regex.re_match Regex.version_pattern "3." = false /\
  Regex.re_match Regex.version_pattern ".12" = false /\
  Regex.re_match Regex.version_pattern "3.1.2" = false /\
  Regex.re_match Regex.version_pattern "-3.12" = false /\
  Regex.re_match Regex.version_pattern "3,12" = false.
Proof. repeat split. Qed.

Example to_string_samples :
  Std.to_string 0 = "0" /\ Std.to_string 7 = "7" /\
  Std.to_string 120 = "120" /\ Std.to_string 2147483647 = "2147483647" /\
  Std.to_string (-2147483648) = "-2147483648".
Proof. repeat split. Qed.

Lemma version_constant_witness :
  0 <= 3 /\ 0 <= 12 /\
  (forall w : World,
      fst (version 3 12 w) = Std.to_string 3 ++ "." ++ Std.to_string 12) /\
  Std.parse_digits (Std.to_string 3) 0 = Some 3 /\
  Std.parse_digits (Std.to_string 12) 0 = Some 12 /\
  (forall w1 w2 : World, fst (version 3 12 w1) = fst (version 3 12 w2)) /\
  (forall w : World,
      fst (version 3 12 (snd (version 3 12 w))) = fst (version 3 12 w)) /\
  (forall w : World,
      Regex.re_match Regex.version_pattern (fst (version 3 12 w)) = true).
Proof.
  split; [lia |]. split; [lia |].
  apply (version_constant 3 12); lia.
Defined.

Lemma greet_read_only_witness :
  let σ : gmap positive World := {[ 1%positive := {| msg := "hello" |} ]} in
  σ !! 1%positive = Some {| msg := "hello" |} /\
  greet {| msg := "hello" |} = ("hello", {| msg := "hello" |}) /\
  call_method 3 12 World_class 1 "greet" [] σ = inr (PyStr "hello", σ).
Proof.
  split; [reflexivity |].
  apply (greet_read_only 3 12 {[ 1%positive := {| msg := "hello" |} ]} 1
           {| msg := "hello" |}).
  reflexivity.
Defined.

Lemma set_total_witness :
  let σ : gmap positive World := {[ 1%positive := {| msg := "hello" |} ]} in
  σ !! 1%positive = Some {| msg := "hello" |} /\
  set "bye" {| msg := "hello" |} = (tt, {| msg := "bye" |}) /\
  set "" {| msg := "hello" |} = (tt, {| msg := "" |}) /\
  call_method 3 12 World_class 1 "set" [PyStr "bye"] σ
  = inr (PyNone, <[1%positive := {| msg := "bye" |}]> σ).
Proof.
  split; [reflexivity |].
  apply (set_total 3 12 {[ 1%positive := {| msg := "hello" |} ]} 1
           {| msg := "hello" |} "bye").
  reflexivity.
Defined.

Lemma holders_isolated_witness :
  let m : gmap positive World :=
    <[2%positive := {| msg := "kept" |}]> {[ 1%positive := World_ctor ]} in
  (1 <> 2)%positive /\
  is_Some (m !! 1%positive) /\
  exists m' : gmap positive World,
    Memory.set 1 "x" m = Some (tt, m') /\
    m' !! 2%positive = m !! 2%positive /\
    fst <$> Memory.greet 2 m' = fst <$> Memory.greet 2 m.
Proof.
  split; [discriminate |]. split; [exists World_ctor; reflexivity |].
  apply (proj1 holders_isolated
           (<[2%positive := {| msg := "kept" |}]>
              {[ 1%positive := World_ctor ]})
           1%positive 2%positive "x").
  - discriminate.
  - exists World_ctor. reflexivity.
Defined.

(** * Further properties of the code *)

(** ** What the version text looks like, for any pair of constants *)

Module VersionText.
Import Std Regex.

Lemma is_digit_not_dot (c : ascii) :
  is_digit c = true -> Ascii.eqb c "." = false.
Proof.
  intros Hc. destruct (Ascii.eqb_spec c ".") as [-> | _];
    [discriminate Hc | reflexivity].
Qed.

Lemma all_digits_no_dot (s : string) :
  all_digits s = true -> no_dot s = true.
Proof.
  induction s as [| c s IH]; simpl; [reflexivity |]. intros H.
  apply andb_true_iff in H as [Hc Hs].
  rewrite (is_digit_not_dot c Hc), IH by assumption. reflexivity.
Qed.

Lemma to_string_no_dot (v : Z) : no_dot (to_string v) = true.
Proof.
  unfold to_string. destruct (v <? 0).
  - change (no_dot (to_chars (digits_fuel (- v)) (- v) "") = true).
    apply all_digits_no_dot, StdFacts.all_digits_to_chars.
  - apply all_digits_no_dot, StdFacts.all_digits_to_chars.
Qed.

(** A text splits around its first dot in one way only. *)
Lemma split_unique (a : string) :
  forall a' b b',
    no_dot a = true -> no_dot a' = true ->
    a ++ "." ++ b = a' ++ "." ++ b' -> a = a' /\ b = b'.
Proof.
  induction a as [| c a IH]; intros [| c' a'] b b' Ha Ha' Heq.
  - injection Heq as Hb. auto.
  - injection Heq as Hc _. subst c'. discriminate Ha'.
  - injection Heq as Hc _. subst c. discriminate Ha.
  - injection Heq as Hc Hrest. subst c'.
    simpl in Ha, Ha'.
    apply andb_true_iff in Ha as [_ Ha].
    apply andb_true_iff in Ha' as [_ Ha'].
    destruct (IH a' b b' Ha Ha' Hrest) as [-> ->]. auto.
Qed.

(** The sign is the only byte of [to_string] that is no digit. *)
Lemma to_string_digits_iff (v : Z) :
  all_digits (to_string v) = true <-> 0 <= v.
Proof.
  split; [| apply StdFacts.to_string_all_digits].
  intros H. destruct (Z.lt_ge_cases v 0) as [Hneg | Hpos]; [| assumption].
  rewrite (StdFacts.to_string_neg v Hneg) in H. discriminate H.
Qed.

Lemma to_string_inj (v v' : Z) : to_string v = to_string v' -> v = v'.
Proof.
  intros Heq.
  destruct (Z.lt_ge_cases v 0) as [Hv | Hv];
    destruct (Z.lt_ge_cases v' 0) as [Hv' | Hv'].
  - rewrite (StdFacts.to_string_neg v Hv), (StdFacts.to_string_neg v' Hv')
      in Heq.
    injection Heq as Heq.
    assert (Some (- v) = Some (- v')) as [= ?]; [| lia].
    rewrite <- (StdFacts.parse_to_string (- v)) by lia.
    rewrite <- (StdFacts.parse_to_string (- v')) by lia.
    rewrite Heq. reflexivity.
  - apply StdFacts.to_string_all_digits in Hv'.
    rewrite <- Heq, (StdFacts.to_string_neg v Hv) in Hv'. discriminate Hv'.
  - apply StdFacts.to_string_all_digits in Hv.
    rewrite Heq, (StdFacts.to_string_neg v' Hv') in Hv. discriminate Hv.
  - assert (Some v = Some v') as [= ?]; [| assumption].
    rewrite <- (StdFacts.parse_to_string v), <- (StdFacts.parse_to_string v')
      by assumption.
    rewrite Heq. reflexivity.
Qed.

(** What the pattern accepts, read off its semantics. *)
Lemma class_inv (p : ascii -> bool) (s : string) :
  Matches (Class p) s -> exists c, s = String c "" /\ p c = true.
Proof. inversion 1; subst. eauto. Qed.

Lemma star_digits_inv (r : regex) (s : string) :
  Matches r s -> r = Star Digit -> all_digits s = true.
Proof.
  induction 1; intros Hr; try discriminate Hr; [reflexivity |].
  injection Hr as ->.
  apply class_inv in H as (c & -> & Hc).
  change (is_digit c && all_digits s2 = true).
  rewrite Hc, IHMatches2 by reflexivity. reflexivity.
Qed.

Lemma plus_digits_inv (s : string) :
  Matches (Plus Digit) s -> s <> "" /\ all_digits s = true.
Proof.
  inversion 1 as [ | | r1 r2 s1 s2 H1 H2 | | | | ]; subst.
  apply class_inv in H1 as (c & -> & Hc).
  apply star_digits_inv in H2; [| reflexivity].
  split; [discriminate |].
  change (is_digit c && all_digits s2 = true). rewrite Hc, H2. reflexivity.
Qed.

Lemma version_pattern_inv (s : string) :
  Matches version_pattern s ->
  exists a b,
    s = a ++ "." ++ b /\
    a <> "" /\ b <> "" /\ all_digits a = true /\ all_digits b = true.
Proof.
  inversion 1 as [ | | r1 r2 a s2 Ha H2 | | | | ]; subst.
  inversion H2 as [ | | r1 r2 d b Hd Hb | | | | ]; subst.
  apply class_inv in Hd as (c & -> & Hc).
  apply Ascii.eqb_eq in Hc. subst c.
  apply plus_digits_inv in Ha as [Ha Da].
  apply plus_digits_inv in Hb as [Hb Db].
  exists a, b. auto.
Qed.

End VersionText.

(** ** [World::version] for any pair of constants *)

(** X1: the text [version()] returns matches [^\d+\.\d+$] exactly when
    both build constants are non-negative; a negative constant is printed
    with its sign and the text no longer matches. *)
Theorem version_matches_iff (major minor : Z) (w : World) :
  Regex.re_match Regex.version_pattern (fst (version major minor w)) = true
  <-> 0 <= major /\ 0 <= minor.
Proof.
  split.
  - intros H. apply RegexFacts.re_match_spec in H.
    apply VersionText.version_pattern_inv in H
      as (a & b & Heq & _ & _ & Da & Db).
    simpl in Heq. rewrite RegexFacts.append_assoc in Heq.
    apply VersionText.split_unique in Heq as [<- <-];
      auto using VersionText.to_string_no_dot, VersionText.all_digits_no_dot.
    split; apply VersionText.to_string_digits_iff; assumption.
  - intros [Hmaj Hmin]. simpl.
    apply RegexFacts.dotted_digits_match;
      auto using StdFacts.to_string_nonempty, StdFacts.to_string_all_digits.
Qed.

(** X2: two builds return the same version text exactly when they have
    the same two constants: the separator keeps, say, 3 and 12 apart from
    31 and 2. *)
Theorem version_injective (major minor major' minor' : Z) (w w' : World) :
  fst (version major minor w) = fst (version major' minor' w')
  <-> major = major' /\ minor = minor'.
Proof.
  split.
  - simpl. rewrite !RegexFacts.append_assoc. intros Heq.
    apply VersionText.split_unique in Heq as [Ha Hb];
      auto using VersionText.to_string_no_dot.
    split; apply VersionText.to_string_inj; assumption.
  - intros [-> ->]. reflexivity.
Qed.

(** ** Sequences of calls on one holder *)

Section SequenceLaws.

Variables PY_MAJOR_VERSION PY_MINOR_VERSION : Z.

Local Abbreviation run := (run PY_MAJOR_VERSION PY_MINOR_VERSION).
Local Abbreviation exec_op := (exec_op PY_MAJOR_VERSION PY_MINOR_VERSION).

Lemma exec_op_read (o : op) (w : World) :
  is_set o = false -> snd (exec_op o w) = w.
Proof. destruct o; [discriminate | reflexivity | reflexivity]. Qed.

(** X3: the [greet] and [version] calls of a sequence can be taken out
    without changing the holder the sequence ends with. *)
Theorem run_drop_reads (ops : list op) :
  forall w : World, run ops w = run (List.filter is_set ops) w.
Proof.
  induction ops as [| o ops IH]; intros w; simpl; [reflexivity |].
  destruct (is_set o) eqn:Ho; simpl.
  - apply IH.
  - rewrite (exec_op_read o w Ho). apply IH.
Qed.

Lemma run_from_any (ops : list op) :
  forall (t : string) (w : World),
    last_set ops = Some t -> run ops w = {| msg := t |}.
Proof.
  induction ops as [| o ops IH]; intros t w; simpl; [discriminate |].
  destruct (last_set ops) as [t' |] eqn:Hl.
  - intros [= ->]. apply IH. reflexivity.
  - destruct o; try discriminate. intros [= ->].
    apply last_set_none in Hl. clear IH. simpl.
    generalize {| msg := t |}.
    induction ops as [| o ops IH]; intros w0; simpl; [reflexivity |].
    simpl in Hl. apply andb_true_iff in Hl as [Ho Hl].
    rewrite exec_op_read by (destruct (is_set o); [discriminate | reflexivity]).
    apply IH, Hl.
Qed.

(** X5: once a sequence of calls contains a [set], the holder it ends with
    does not depend on the holder it started from. *)
Theorem run_forgets_start (ops : list op) (w w' : World) :
  existsb is_set ops = true -> run ops w = run ops w'.
Proof.
  intros Hs.
  destruct (last_set ops) as [t |] eqn:Hl.
  - rewrite (run_from_any ops t w Hl), (run_from_any ops t w' Hl).
    reflexivity.
  - apply last_set_none in Hl. exfalso.
    apply existsb_exists in Hs as (o & Hin & Ho).
    rewrite forallb_forall in Hl. specialize (Hl o Hin).
    rewrite Ho in Hl. discriminate.
Qed.

End SequenceLaws.

(** ** The further properties at concrete inputs *)

Example version_negative_minor :
  fst (version 3 (-1) World_ctor) = "3.-1" /\
  Regex.re_match Regex.version_pattern (fst (version 3 (-1) World_ctor))
  = false.
Proof. split; reflexivity. Qed.

Example run_drop_reads_sample :
  run 3 12 [OpGreet; OpSet "a"; OpVersion; OpSet "b"; OpGreet] World_ctor
  = run 3 12 [OpSet "a"; OpSet "b"] World_ctor.
Proof. reflexivity. Qed.

Lemma run_forgets_start_witness :
  existsb is_set [OpGreet; OpSet "a"; OpVersion] = true /\
  run 3 12 [OpGreet; OpSet "a"; OpVersion] World_ctor
  = run 3 12 [OpGreet; OpSet "a"; OpVersion] {| msg := "old" |}.
Proof.
  split; [reflexivity |].
  apply (run_forgets_start 3 12 [OpGreet; OpSet "a"; OpVersion]).
  reflexivity.
Defined.
